(** * mbed-util/atomic_ops.h: compare-and-set, increment and decrement

    A shallow embedding of [mbed::util::atomic_cas], [atomic_incr] and
    [atomic_decr] over a small model of the Cortex-M features the header
    relies on (exclusive monitor, PRIMASK), followed by the properties the
    specification states about them. *)

From Stdlib Require Import ZArith Bool List Lia.
Import ListNotations.
Open Scope Z_scope.

(* ================================================================= *)
(** ** Fixed-width unsigned integers *)

(** The three types the header specialises [atomic_cas] for:
    [uint8_t], [uint16_t] and [uint32_t]. *)
Inductive width : Type := W8 | W16 | W32.

Definition bits (T : width) : Z :=
  match T with W8 => 8 | W16 => 16 | W32 => 32 end.

(** Conversion to an unsigned [n]-bit type keeps the low [n] bits. *)
Definition wrap (n z : Z) : Z := z mod 2 ^ n.

(** The values of an unsigned [n]-bit type. *)
Definition in_range (n z : Z) : Prop := 0 <= z < 2 ^ n.

(** [a + b], [a - b] and [a * b] computed in the unsigned type [T]. *)
Definition add_T (T : width) (a b : Z) : Z := wrap (bits T) (a + b).
Definition sub_T (T : width) (a b : Z) : Z := wrap (bits T) (a - b).
Definition mul_T (T : width) (a b : Z) : Z := wrap (bits T) (a * b).

(* ================================================================= *)
(** ** The processor *)

(** The state the header touches: the memory cell behind [ptr] /
    [valuePtr], the local exclusive monitor (is a reservation held?) and
    PRIMASK (are interrupts masked?). *)
Record machine : Type := Machine {
  cell : Z;
  monitor : bool;
  primask : bool
}.

Definition set_cell (v : Z) (m : machine) : machine :=
  {| cell := v; monitor := monitor m; primask := primask m |}.
Definition set_monitor (b : bool) (m : machine) : machine :=
  {| cell := cell m; monitor := b; primask := primask m |}.
Definition set_primask (b : bool) (m : machine) : machine :=
  {| cell := cell m; monitor := monitor m; primask := b |}.

(** Code runs in a state monad over the machine. *)
Definition M (A : Type) : Type := machine -> A * machine.

Definition ret {A : Type} (a : A) : M A := fun m => (a, m).

Definition bind {A B : Type} (c : M A) (k : A -> M B) : M B :=
  fun m => let (a, m') := c m in k a m'.

Notation "x <- c ;; k" := (bind c (fun x => k))
  (at level 61, c at next level, right associativity).
Notation "' p <- c ;; k" := (bind c (fun x => match x with p => k end))
  (at level 61, p pattern, c at next level, right associativity).
Notation "c ;;; k" := (bind c (fun _ => k))
  (at level 61, right associativity).

(** Plain accesses [*ptr] and [*ptr = v] at an [n]-bit type. *)
Definition load (n : Z) : M Z := fun m => (wrap n (cell m), m).
Definition store (n v : Z) : M unit := fun m => (tt, set_cell (wrap n v) m).

(** Modelled from the spec: the load-exclusive instruction behind the
    [__LDREX] intrinsics of cmsis-core/core_generic.h, a header that is
    not part of the sources.  It reads the cell at [n] bits and
    establishes the reservation. *)
Definition ldrex (n : Z) : M Z :=
  fun m => (wrap n (cell m), set_monitor true m).

(** Modelled from the spec: [__LDREXB] of cmsis-core/core_generic.h, the
    load-exclusive of a byte. *)
Definition __LDREXB : M Z := ldrex 8.

(** Modelled from the spec: [__LDREXH] of cmsis-core/core_generic.h, the
    load-exclusive of a half-word. *)
Definition __LDREXH : M Z := ldrex 16.

(** Modelled from the spec: [__LDREXW] of cmsis-core/core_generic.h, the
    load-exclusive of a word. *)
Definition __LDREXW : M Z := ldrex 32.

(** Modelled from the spec: the store-exclusive instruction behind the
    [__STREX] intrinsics of cmsis-core/core_generic.h.  The store is
    performed, and 0 returned, only if the reservation is still held;
    otherwise nothing is written and 1 is returned.  Either way the
    reservation is given up. *)
Definition strex (n value : Z) : M Z :=
  fun m => if monitor m
           then (0, set_monitor false (set_cell (wrap n value) m))
           else (1, m).

(** Modelled from the spec: [__STREXB] of cmsis-core/core_generic.h, the
    store-exclusive of a byte. *)
Definition __STREXB (value : Z) : M Z := strex 8 value.

(** Modelled from the spec: [__STREXH] of cmsis-core/core_generic.h, the
    store-exclusive of a half-word. *)
Definition __STREXH (value : Z) : M Z := strex 16 value.

(** Modelled from the spec: [__STREXW] of cmsis-core/core_generic.h, the
    store-exclusive of a word. *)
Definition __STREXW (value : Z) : M Z := strex 32 value.

(** Modelled from the spec: [__CLREX] of cmsis-core/core_generic.h
    abandons the reservation. *)
Definition __CLREX : M unit := fun m => (tt, set_monitor false m).

(** Modelled from the spec: [__get_PRIMASK] of cmsis-core/core_generic.h
    records the interrupt-enable state: PRIMASK reads as 1 when interrupts
    are masked and as 0 when they are enabled. *)
Definition __get_PRIMASK : M Z := fun m => (Z.b2z (primask m), m).

(** Modelled from the spec: [__disable_irq] of cmsis-core/core_generic.h
    masks interrupts. *)
Definition __disable_irq : M unit := fun m => (tt, set_primask true m).

(** Modelled from the spec: [__enable_irq] of cmsis-core/core_generic.h
    enables interrupts. *)
Definition __enable_irq : M unit := fun m => (tt, set_primask false m).

(** What another agent does at an instruction boundary.  [None]: nothing
    happens.  [Some handler]: an interrupt is raised whose handler writes
    [handler c] to the cell holding [c]. *)
Definition irq : Type := option (Z -> Z).

(** Modelled from the spec: an instruction boundary of the running code.
    A raised interrupt is taken only when PRIMASK is clear; what its
    handler writes goes to the cell, and the reservation does not survive
    it. *)
Definition irq_point (i : irq) : M unit :=
  fun m => match i with
           | None => (tt, m)
           | Some handler =>
               if primask m then (tt, m)
               else (tt, set_monitor false (set_cell (handler (cell m)) m))
           end.

(** A handler that leaves the value of the cell as it found it. *)
Definition quiet (i : irq) : Prop :=
  match i with
  | None => True
  | Some handler => forall c, handler c = c
  end.

(* ================================================================= *)
(** ** atomic_cas *)

(** The in-out parameter [expectedCurrentValue] points to storage owned by
    the caller, distinct from the cell: its content is passed in and its
    content at return is handed back next to the result.  The argument
    [i] is what happens between the read of the cell and the write. *)

(** [atomic_cas<uint8_t>], lines 84-95. *)
Definition atomic_cas_u8 (i : irq) (expectedCurrentValue desiredValue : Z)
  : M (bool * Z) :=
  currentValue <- __LDREXB ;;
  irq_point i ;;;
  if negb (currentValue =? expectedCurrentValue) then
    __CLREX ;;;
    ret (false, currentValue)
  else
    status <- __STREXB desiredValue ;;
    ret (status =? 0, expectedCurrentValue).

(** [atomic_cas<uint16_t>], lines 97-108. *)
Definition atomic_cas_u16 (i : irq) (expectedCurrentValue desiredValue : Z)
  : M (bool * Z) :=
  currentValue <- __LDREXH ;;
  irq_point i ;;;
  if negb (currentValue =? expectedCurrentValue) then
    __CLREX ;;;
    ret (false, currentValue)
  else
    status <- __STREXH desiredValue ;;
    ret (status =? 0, expectedCurrentValue).

(** [atomic_cas<uint32_t>], lines 110-121. *)
Definition atomic_cas_u32 (i : irq) (expectedCurrentValue desiredValue : Z)
  : M (bool * Z) :=
  currentValue <- __LDREXW ;;
  irq_point i ;;;
  if negb (currentValue =? expectedCurrentValue) then
    __CLREX ;;;
    ret (false, currentValue)
  else
    status <- __STREXW desiredValue ;;
    ret (status =? 0, expectedCurrentValue).

(** The generic [atomic_cas<T>] for Cortex-M0, lines 123-144, at a type
    [T] of [n] bits. *)
Definition atomic_cas_m0 (n : Z) (i : irq)
  (expectedCurrentValue desiredValue : Z) : M (bool * Z) :=
  let rc := true in
  previousPRIMASK <- __get_PRIMASK ;;
  __disable_irq ;;;
  currentValue <- load n ;;
  irq_point i ;;;
  '(rc, expectedCurrentValue) <-
     (if currentValue =? expectedCurrentValue then
        store n desiredValue ;;;
        ret (rc, expectedCurrentValue)
      else
        ret (false, currentValue)) ;;
  (if previousPRIMASK =? 0 then __enable_irq else ret tt) ;;;
  ret (rc, expectedCurrentValue).

(** The two build configurations for which the header defines
    [atomic_cas]: [__CORTEX_M >= 0x03] and [__CORTEX_M == 0x00]. *)
Inductive core : Type := CortexM3 | CortexM0.

(** [atomic_cas<T>] as the compiler resolves it. *)
Definition atomic_cas (c : core) (T : width) : irq -> Z -> Z -> M (bool * Z) :=
  match c with
  | CortexM3 =>
      match T with
      | W8 => atomic_cas_u8
      | W16 => atomic_cas_u16
      | W32 => atomic_cas_u32
      end
  | CortexM0 => atomic_cas_m0 (bits T)
  end.

(* ================================================================= *)
(** ** atomic_incr and atomic_decr *)

Section Loops.

Variable c : core.
Variable T : width.

(** The [while (true)] loop of [atomic_incr], lines 156-161.  [fuel]
    bounds the number of iterations; [None] is returned when it runs out.
    The [k]-th iteration meets the [k]-th entry of [sched] inside its
    [atomic_cas]; past the end of [sched] nothing interferes. *)
Fixpoint incr_loop (fuel : nat) (sched : list irq) (oldValue delta : Z)
  : M (option Z) :=
  match fuel with
  | O => ret None
  | S fuel' =>
      let newValue := add_T T oldValue delta in
      '(ok, oldValue) <- atomic_cas c T (hd None sched) oldValue newValue ;;
      if ok : bool then ret (Some newValue)
      else incr_loop fuel' (tl sched) oldValue delta
  end.

(** [atomic_incr<T>], lines 153-162. *)
Definition atomic_incr (fuel : nat) (sched : list irq) (delta : Z)
  : M (option Z) :=
  oldValue <- load (bits T) ;;
  incr_loop fuel sched oldValue delta.

(** The [while (true)] loop of [atomic_decr], lines 173-178. *)
Fixpoint decr_loop (fuel : nat) (sched : list irq) (oldValue delta : Z)
  : M (option Z) :=
  match fuel with
  | O => ret None
  | S fuel' =>
      let newValue := sub_T T oldValue delta in
      '(ok, oldValue) <- atomic_cas c T (hd None sched) oldValue newValue ;;
      if ok : bool then ret (Some newValue)
      else decr_loop fuel' (tl sched) oldValue delta
  end.

(** [atomic_decr<T>], lines 170-179. *)
Definition atomic_decr (fuel : nat) (sched : list irq) (delta : Z)
  : M (option Z) :=
  oldValue <- load (bits T) ;;
  decr_loop fuel sched oldValue delta.

(** [atomic_incr(valuePtr, delta)] called once per entry of [scheds],
    one after the other, each call under its own schedule; the values
    returned are collected in call order. *)
Fixpoint incr_calls (fuel : nat) (scheds : list (list irq)) (delta : Z)
  : M (list (option Z)) :=
  match scheds with
  | [] => ret []
  | sched :: rest =>
      r <- atomic_incr fuel sched delta ;;
      rs <- incr_calls fuel rest delta ;;
      ret (r :: rs)
  end.

End Loops.

(** The three specialisations are one piece of code at three widths. *)
Definition cas_excl (n : Z) (i : irq) (expectedCurrentValue desiredValue : Z)
  : M (bool * Z) :=
  currentValue <- ldrex n ;;
  irq_point i ;;;
  if negb (currentValue =? expectedCurrentValue) then
    __CLREX ;;;
    ret (false, currentValue)
  else
    status <- strex n desiredValue ;;
    ret (status =? 0, expectedCurrentValue).

(** What a call of [atomic_cas] leaves behind: the value returned, the
    content of [*expectedCurrentValue] and the machine. *)
Definition returned {A : Type} (r : (bool * Z) * A) : bool := fst (fst r).
Definition expected_out {A : Type} (r : (bool * Z) * A) : Z := snd (fst r).
Definition final {A B : Type} (r : A * B) : B := snd r.

(* ================================================================= *)
(** ** Two streams of increments on one processor *)

(** Two agents (a thread and an interrupt handler, or two threads) each
    make a number of [atomic_incr] calls on the same cell.  The processor
    runs one of them at a time and may switch between them at every
    instruction boundary, so the code is followed statement by statement. *)

(** The statements of [atomic_incr] and of the [atomic_cas] it calls.  The
    line numbers are those of the 8-bit specialisation; the 16- and 32-bit
    ones read the same 13 and 26 lines further down. *)
Inductive label : Type :=
| Next        (* between two calls *)
| IncrRead    (* 155: T oldValue = *valuePtr *)
| IncrNew     (* 157: const T newValue = oldValue + delta *)
| ExLoad      (* 87: currentValue = __LDREXB(ptr) *)
| ExTest      (* 88: if (currentValue != *expectedCurrentValue) *)
| ExRefresh   (* 89: *expectedCurrentValue = currentValue *)
| ExClear     (* 90-91: __CLREX(); return false *)
| ExStore     (* 94: return !__STREXB(desiredValue, ptr) *)
| MkSave      (* 126-128: rc = true; previousPRIMASK = __get_PRIMASK() *)
| MkDisable   (* 129: __disable_irq() *)
| MkLoad      (* 131: T currentValue = *ptr *)
| MkTest      (* 132: if (currentValue == *expectedCurrentValue) *)
| MkStore     (* 133: *ptr = desiredValue *)
| MkRefresh   (* 135-136: *expectedCurrentValue = currentValue; rc = false *)
| MkRestore   (* 139-143: if (!previousPRIMASK) __enable_irq(); return rc *)
| IncrTest    (* 158: if (atomic_cas(valuePtr, &oldValue, newValue)) *)
| IncrReturn. (* 159: return newValue *)

(** An agent: where it stands, how many calls it still has to make, the
    local variables of [atomic_incr] and [atomic_cas], and the values its
    calls have returned so far, latest first. *)
Record agent : Type := Agent {
  pc : label;
  calls : nat;
  oldValue : Z;
  newValue : Z;
  currentValue : Z;
  previousPRIMASK : Z;
  rc : bool;
  returns : list Z
}.

Definition goto (l : label) (a : agent) : agent :=
  {| pc := l; calls := calls a; oldValue := oldValue a;
     newValue := newValue a; currentValue := currentValue a;
     previousPRIMASK := previousPRIMASK a; rc := rc a;
     returns := returns a |}.
Definition set_oldValue (v : Z) (a : agent) : agent :=
  {| pc := pc a; calls := calls a; oldValue := v;
     newValue := newValue a; currentValue := currentValue a;
     previousPRIMASK := previousPRIMASK a; rc := rc a;
     returns := returns a |}.
Definition set_newValue (v : Z) (a : agent) : agent :=
  {| pc := pc a; calls := calls a; oldValue := oldValue a;
     newValue := v; currentValue := currentValue a;
     previousPRIMASK := previousPRIMASK a; rc := rc a;
     returns := returns a |}.
Definition set_currentValue (v : Z) (a : agent) : agent :=
  {| pc := pc a; calls := calls a; oldValue := oldValue a;
     newValue := newValue a; currentValue := v;
     previousPRIMASK := previousPRIMASK a; rc := rc a;
     returns := returns a |}.
Definition set_previousPRIMASK (v : Z) (a : agent) : agent :=
  {| pc := pc a; calls := calls a; oldValue := oldValue a;
     newValue := newValue a; currentValue := currentValue a;
     previousPRIMASK := v; rc := rc a;
     returns := returns a |}.
Definition set_rc (b : bool) (a : agent) : agent :=
  {| pc := pc a; calls := calls a; oldValue := oldValue a;
     newValue := newValue a; currentValue := currentValue a;
     previousPRIMASK := previousPRIMASK a; rc := b;
     returns := returns a |}.
Definition leave (a : agent) : agent :=
  {| pc := Next; calls := pred (calls a); oldValue := oldValue a;
     newValue := newValue a; currentValue := currentValue a;
     previousPRIMASK := previousPRIMASK a; rc := rc a;
     returns := newValue a :: returns a |}.

(** The exclusive accesses of the type [T]. *)
Definition __LDREX (T : width) : M Z :=
  match T with W8 => __LDREXB | W16 => __LDREXH | W32 => __LDREXW end.
Definition __STREX (T : width) (value : Z) : M Z :=
  match T with
  | W8 => __STREXB value | W16 => __STREXH value | W32 => __STREXW value
  end.

(** One statement of an agent making [atomic_incr(valuePtr, delta)] calls
    at the type [T] on the core [c]. *)
Definition step (c : core) (T : width) (delta : Z) (a : agent) (m : machine)
  : agent * machine :=
  match pc a with
  | Next =>
      match calls a with
      | O => (a, m)
      | S _ => (goto IncrRead a, m)
      end
  | IncrRead =>
      let (v, m) := load (bits T) m in
      (goto IncrNew (set_oldValue v a), m)
  | IncrNew =>
      (goto (match c with CortexM3 => ExLoad | CortexM0 => MkSave end)
            (set_newValue (add_T T (oldValue a) delta) a), m)
  | ExLoad =>
      let (v, m) := __LDREX T m in
      (goto ExTest (set_currentValue v a), m)
  | ExTest =>
      (goto (if negb (currentValue a =? oldValue a) then ExRefresh
             else ExStore) a, m)
  | ExRefresh =>
      (goto ExClear (set_oldValue (currentValue a) a), m)
  | ExClear =>
      let (_, m) := __CLREX m in
      (goto IncrTest (set_rc false a), m)
  | ExStore =>
      let (status, m) := __STREX T (newValue a) m in
      (goto IncrTest (set_rc (status =? 0) a), m)
  | MkSave =>
      let (p, m) := __get_PRIMASK m in
      (goto MkDisable (set_previousPRIMASK p (set_rc true a)), m)
  | MkDisable =>
      let (_, m) := __disable_irq m in
      (goto MkLoad a, m)
  | MkLoad =>
      let (v, m) := load (bits T) m in
      (goto MkTest (set_currentValue v a), m)
  | MkTest =>
      (goto (if currentValue a =? oldValue a then MkStore else MkRefresh) a,
       m)
  | MkStore =>
      let (_, m) := store (bits T) (newValue a) m in
      (goto MkRestore a, m)
  | MkRefresh =>
      (goto MkRestore (set_rc false (set_oldValue (currentValue a) a)), m)
  | MkRestore =>
      let (_, m) :=
        (if previousPRIMASK a =? 0 then __enable_irq else ret tt) m in
      (goto IncrTest a, m)
  | IncrTest =>
      (goto (if rc a then IncrReturn else IncrNew) a, m)
  | IncrReturn =>
      (leave a, m)
  end.

(** An agent with [n] calls to make. *)
Definition fresh (n : nat) : agent :=
  {| pc := Next; calls := n; oldValue := 0; newValue := 0;
     currentValue := 0; previousPRIMASK := 0; rc := false; returns := [] |}.

(** An agent is finished when it stands between calls with none left. *)
Definition finished (a : agent) : Prop := pc a = Next /\ calls a = O.

(** The processor with its two agents, named [false] and [true];
    [running] is the one that executed last. *)
Record system : Type := System {
  mach : machine;
  running : bool;
  agents : bool -> agent
}.

Definition update (t : bool) (a : agent) (f : bool -> agent) : bool -> agent :=
  fun t' => if Bool.eqb t' t then a else f t'.

(** The agent [t] executes its next statement. *)
Definition exec (c : core) (T : width) (delta : bool -> Z) (t : bool)
  (s : system) : system :=
  let (a, m) := step c T (delta t) (agents s t) (mach s) in
  {| mach := m; running := t; agents := update t a (agents s) |}.

(** Modelled from the spec: the single core hands the processor to the
    other agent by an exception (an interrupt, or the context switch of a
    scheduler), which is not taken while PRIMASK is set and whose entry
    and return leave no reservation behind.  When the agent [t] is
    scheduled but cannot get the processor, nothing happens. *)
Definition sched (c : core) (T : width) (delta : bool -> Z) (s : system)
  (t : bool) : system :=
  if Bool.eqb t (running s) then exec c T delta t s
  else if primask (mach s) then s
  else exec c T delta t
         {| mach := set_monitor false (mach s); running := t;
            agents := agents s |}.

(** An interleaving is the list of the agents scheduled, in order. *)
Definition interleave (c : core) (T : width) (delta : bool -> Z)
  (schedule : list bool) (s : system) : system :=
  fold_left (sched c T delta) schedule s.

(** The two streams: [a] calls with delta [d1] and [b] calls with delta
    [d2], on the machine [m], the agent [first] holding the processor. *)
Definition streams (a b : nat) (m : machine) (first : bool) : system :=
  {| mach := m; running := first;
     agents := fun t => if t then fresh b else fresh a |}.
Definition deltas (d1 d2 : Z) : bool -> Z := fun t => if t then d2 else d1.

(** [n] statements of one agent in a row. *)
Fixpoint steps (c : core) (T : width) (delta : Z) (n : nat)
  (am : agent * machine) : agent * machine :=
  match n with
  | O => am
  | S n' => steps c T delta n' (step c T delta (fst am) (snd am))
  end.

(** The number of statements of an uninterrupted call: 8 through the
    exclusive monitor, 11 under masked interrupts. *)
Definition call_length (c : core) : nat :=
  match c with CortexM3 => 8%nat | CortexM0 => 11%nat end.

(** *** The invariant of an interleaving *)

(** Has the current call of the agent already written its sum? *)
Definition committed (a : agent) : bool :=
  match pc a with
  | IncrReturn => true
  | IncrTest | MkRestore => rc a
  | _ => false
  end.

(** Increments of an agent that are in the cell, counted from minus the
    number of calls it was given. *)
Definition progress (a : agent) : Z :=
  Z.b2z (committed a) - Z.of_nat (calls a).

(** What an agent knows at each statement.  [me] tells whether the agent
    is the one running.  Between the exclusive load and the exclusive
    store a running agent that still holds the reservation has seen the
    cell as it is; between the plain load and the plain store of the
    masking variant the agent is running with interrupts masked and has
    seen the cell as it is. *)
Definition agent_ok (T : width) (m : machine) (me : bool) (d : Z) (a : agent)
  : Prop :=
  (pc a <> Next -> (0 < calls a)%nat) /\
  match pc a with
  | ExLoad | MkSave =>
      newValue a = add_T T (oldValue a) d
  | ExTest =>
      newValue a = add_T T (oldValue a) d /\
      (me = true -> monitor m = true ->
       currentValue a = wrap (bits T) (cell m))
  | ExStore =>
      newValue a = add_T T (oldValue a) d /\
      (me = true -> monitor m = true -> oldValue a = wrap (bits T) (cell m))
  | MkDisable =>
      newValue a = add_T T (oldValue a) d /\ rc a = true
  | MkLoad =>
      newValue a = add_T T (oldValue a) d /\ rc a = true /\
      me = true /\ primask m = true
  | MkTest =>
      newValue a = add_T T (oldValue a) d /\ rc a = true /\
      me = true /\ primask m = true /\
      currentValue a = wrap (bits T) (cell m)
  | MkStore =>
      newValue a = add_T T (oldValue a) d /\ rc a = true /\
      me = true /\ primask m = true /\
      oldValue a = wrap (bits T) (cell m)
  | _ => True
  end.

(** The cell holds the sum of the increments written so far, and every
    agent knows what it should. *)
Definition invariant (T : width) (delta : bool -> Z) (total : bool -> nat)
  (s : system) : Prop :=
  cell (mach s)
  = wrap (bits T)
      ((Z.of_nat (total false) + progress (agents s false)) * delta false +
       (Z.of_nat (total true) + progress (agents s true)) * delta true) /\
  forall t, agent_ok T (mach s) (Bool.eqb t (running s)) (delta t) (agents s t).

(** *** Masked regions *)

(** Is the agent between [__disable_irq()] and the end of the
    interrupt-masking [atomic_cas]? *)
Definition in_masked (a : agent) : bool :=
  match pc a with
  | MkLoad | MkTest | MkStore | MkRefresh | MkRestore => true
  | _ => false
  end.

(** What holds of an agent with respect to PRIMASK, [p0] being PRIMASK
    at the start: past [__get_PRIMASK()] the agent has recorded [p0], and
    inside the masked region it is the running agent and interrupts are
    masked.  [me] tells whether the agent is the one running. *)
Definition mask_ok (p0 : bool) (m : machine) (me : bool) (a : agent) : Prop :=
  match pc a with
  | MkDisable => previousPRIMASK a = Z.b2z p0
  | MkLoad | MkTest | MkStore | MkRefresh | MkRestore =>
      me = true /\ primask m = true /\ previousPRIMASK a = Z.b2z p0
  | _ => True
  end.

(** Every agent is as [mask_ok] says, and PRIMASK is what it was at the
    start whenever no agent is inside a masked region. *)
Definition mask_invariant (p0 : bool) (s : system) : Prop :=
  (forall t, mask_ok p0 (mach s) (Bool.eqb t (running s)) (agents s t)) /\
  (in_masked (agents s false) = false ->
   in_masked (agents s true) = false ->
   primask (mach s) = p0).

(* ================================================================= *)
(** * Properties *)

(** ** Basic facts *)

Lemma wrap_small n z : in_range n z -> wrap n z = z.
Proof. unfold in_range, wrap. intros H. now apply Z.mod_small. Qed.

Lemma wrap_wrap n z : wrap n (wrap n z) = wrap n z.
Proof. unfold wrap. apply Zmod_mod. Qed.

Lemma atomic_cas_M3 T : atomic_cas CortexM3 T = cas_excl (bits T).
Proof. destruct T; reflexivity. Qed.

Lemma Zeqb_b2z_0 b : (Z.b2z b =? 0) = negb b.
Proof. now destruct b. Qed.

(** An uninterrupted compare-and-set through the exclusive monitor. *)
Lemma cas_excl_serial n e d m :
  cas_excl n None e d m =
  if wrap n (cell m) =? e
  then ((true, e), set_monitor false (set_cell (wrap n d) m))
  else ((false, wrap n (cell m)), set_monitor false m).
Proof.
  unfold cas_excl, bind, ldrex, irq_point, strex, __CLREX, ret; simpl.
  destruct (wrap n (cell m) =? e); reflexivity.
Qed.

(** A compare-and-set under masked interrupts: whatever is raised
    meanwhile is not taken. *)
Lemma cas_m0_eval n i e d m :
  atomic_cas_m0 n i e d m =
  if wrap n (cell m) =? e
  then ((true, e), set_cell (wrap n d) m)
  else ((false, wrap n (cell m)), m).
Proof.
  unfold atomic_cas_m0, bind, __get_PRIMASK, __disable_irq, load, irq_point,
    store, __enable_irq, ret; simpl.
  rewrite Zeqb_b2z_0.
  destruct m as [cl mo pm]; simpl.
  destruct i, (wrap n cl =? e), pm; reflexivity.
Qed.

(* ================================================================= *)
(** ** Compare-and-set, one call at a time *)

(** C1. A compare-and-set whose expectation is right succeeds: when the cell
    and [*expectedCurrentValue] both hold [v], an uninterrupted
    [atomic_cas] with desired value [w] returns [true], leaves [w] in the
    cell and leaves [v] in [*expectedCurrentValue].  This holds for the
    8-, 16- and 32-bit specialisations and for the interrupt-masking
    variant at every width [n]. *)
Theorem cas_serial_success (m : machine) (v w : Z) :
  cell m = v ->
  (in_range 8 v -> in_range 8 w ->
   let r := atomic_cas_u8 None v w m in
   returned r = true /\ cell (final r) = w /\ expected_out r = v) /\
  (in_range 16 v -> in_range 16 w ->
   let r := atomic_cas_u16 None v w m in
   returned r = true /\ cell (final r) = w /\ expected_out r = v) /\
  (in_range 32 v -> in_range 32 w ->
   let r := atomic_cas_u32 None v w m in
   returned r = true /\ cell (final r) = w /\ expected_out r = v) /\
  (forall n, in_range n v -> in_range n w ->
   let r := atomic_cas_m0 n None v w m in
   returned r = true /\ cell (final r) = w /\ expected_out r = v).
Proof.
  intros Hc.
  assert (excl : forall n, in_range n v -> in_range n w ->
            let r := cas_excl n None v w m in
            returned r = true /\ cell (final r) = w /\ expected_out r = v).
  { intros n Hv Hw. cbv zeta. rewrite cas_excl_serial, Hc, (wrap_small n v Hv).
    rewrite Z.eqb_refl. cbn. now rewrite (wrap_small n w Hw). }
  split; [exact (excl 8) | split; [exact (excl 16) | split; [exact (excl 32) |]]].
  intros n Hv Hw. cbv zeta.
  rewrite cas_m0_eval, Hc, (wrap_small n v Hv), Z.eqb_refl. cbn.
  now rewrite (wrap_small n w Hw).
Qed.

Lemma cas_serial_success_witness :
  let m := {| cell := 200; monitor := false; primask := false |} in
  returned (atomic_cas_u8 None 200 7 m) = true /\
  cell (final (atomic_cas_u8 None 200 7 m)) = 7 /\
  expected_out (atomic_cas_u8 None 200 7 m) = 200.
Proof.
  cbv zeta.
  apply (cas_serial_success {| cell := 200; monitor := false; primask := false |}
           200 7 eq_refl); unfold in_range; lia.
Defined.

(** X1. A compare-and-set whose expectation is wrong: when the cell holds [v]
    and [*expectedCurrentValue] holds [u <> v], an uninterrupted
    [atomic_cas] returns [false], leaves [v] in the cell and puts [v] in
    [*expectedCurrentValue], on either core and at each width. *)
Lemma cas_serial_mismatch (c : core) (T : width) (m : machine) (v u w : Z) :
  in_range (bits T) v -> cell m = v -> u <> v ->
  let r := atomic_cas c T None u w m in
  returned r = false /\ cell (final r) = v /\ expected_out r = v.
Proof.
  intros Hv Hc Hu. cbv zeta.
  assert (Hne : (wrap (bits T) (cell m) =? u) = false).
  { rewrite Hc, (wrap_small _ _ Hv). apply Z.eqb_neq. congruence. }
  destruct c.
  - rewrite atomic_cas_M3, cas_excl_serial, Hne. cbn.
    rewrite Hc. auto using wrap_small.
  - simpl atomic_cas. rewrite cas_m0_eval, Hne. cbn.
    rewrite Hc. auto using wrap_small.
Qed.


(** X3. Through the exclusive monitor there is a second way to fail: the
    expectation was right when the cell was read, and the exclusive store
    fails because a handler ran in between.  The call returns [false],
    [*expectedCurrentValue] is what it was, and the cell holds what the
    handler wrote. *)
Lemma cas_lost_reservation (T : width) (handler : Z -> Z) (v w : Z)
  (m : machine) :
  primask m = false -> wrap (bits T) (cell m) = v ->
  let r := atomic_cas CortexM3 T (Some handler) v w m in
  returned r = false /\ expected_out r = v /\
  cell (final r) = handler (cell m).
Proof.
  intros Hp Hv. cbv zeta. rewrite atomic_cas_M3.
  unfold cas_excl, bind, ldrex, irq_point, strex, __CLREX, ret.
  destruct m as [cl mo pm]. cbn in *. subst pm.
  rewrite Hv, Z.eqb_refl. cbn. auto.
Qed.

(** C2. The specialisations for the exclusive monitor return [false] in a
    second case, which leaves [*expectedCurrentValue] alone: the
    expectation was right when the cell was read, and the store-exclusive
    failed because an interrupt handler wrote the cell in between.  With
    the cell and the expectation at 5 and a handler writing 9, the 8-bit
    [atomic_cas] returns [false], the cell holds 9 and
    [*expectedCurrentValue] still holds 5. *)
Theorem cas_strex_failure_keeps_stale_expectation :
  let m := {| cell := 5; monitor := false; primask := false |} in
  let r := atomic_cas_u8 (Some (fun _ => 9)) 5 6 m in
  returned r = false /\ cell (final r) = 9 /\ expected_out r = 5 /\
  expected_out r <> cell (final r).
Proof. cbv zeta. cbn. repeat split; discriminate. Qed.

(** C4. The two realisations agree: at each of the three widths, from every
    machine state and for every expected and desired value, the
    uninterrupted exclusive-monitor [atomic_cas] and the interrupt-masking
    [atomic_cas] return the same boolean, leave the same value in the cell
    and the same value in [*expectedCurrentValue], and leave PRIMASK the
    same. *)
Theorem cas_realizations_agree (T : width) (m : machine) (e d : Z) :
  let r3 := atomic_cas CortexM3 T None e d m in
  let r0 := atomic_cas CortexM0 T None e d m in
  returned r3 = returned r0 /\
  cell (final r3) = cell (final r0) /\
  expected_out r3 = expected_out r0 /\
  primask (final r3) = primask (final r0).
Proof.
  cbv zeta. rewrite atomic_cas_M3, cas_excl_serial. simpl atomic_cas.
  rewrite cas_m0_eval.
  destruct (wrap (bits T) (cell m) =? e); cbn; auto.
Qed.

(* ================================================================= *)
(** ** The retry loops *)

(** An uninterrupted [atomic_cas] whose expectation is what the cell holds
    stores the desired value. *)
Lemma cas_hit (c : core) (T : width) (m : machine) (d : Z) :
  exists m',
    atomic_cas c T None (wrap (bits T) (cell m)) d m
    = ((true, wrap (bits T) (cell m)), m') /\
    cell m' = wrap (bits T) d /\ primask m' = primask m.
Proof.
  destruct c.
  - rewrite atomic_cas_M3, cas_excl_serial, Z.eqb_refl. eauto.
  - simpl atomic_cas. rewrite cas_m0_eval, Z.eqb_refl. eauto.
Qed.

(** An [atomic_cas] with the right expectation, met by a handler that
    leaves the cell's value alone: either it stores the desired value, or
    it returns [false] and nothing has changed but the reservation. *)
Lemma cas_quiet (c : core) (T : width) (i : irq) (m : machine) (d : Z) :
  quiet i ->
  exists m', primask m' = primask m /\
    (atomic_cas c T i (wrap (bits T) (cell m)) d m
       = ((true, wrap (bits T) (cell m)), m') /\ cell m' = wrap (bits T) d
     \/
     atomic_cas c T i (wrap (bits T) (cell m)) d m
       = ((false, wrap (bits T) (cell m)), m') /\ cell m' = cell m /\
     i <> None).
Proof.
  intros Hq. destruct i as [h|].
  - destruct c.
    + rewrite atomic_cas_M3.
      unfold cas_excl, bind, ldrex, irq_point, strex, __CLREX, ret.
      destruct m as [cl mo pm]; simpl in *. destruct pm; simpl.
      * rewrite Z.eqb_refl; simpl. eexists. split.
        2: { left. split; reflexivity. }
        reflexivity.
      * rewrite Hq, Z.eqb_refl; simpl. eexists. split.
        2: { right. split; [reflexivity|]. split; [reflexivity | discriminate]. }
        reflexivity.
    + simpl atomic_cas. rewrite cas_m0_eval, Z.eqb_refl.
      eexists. split.
      2: { left. split; reflexivity. }
      reflexivity.
  - destruct (cas_hit c T m d) as (m' & E & Hc & Hp).
    exists m'. split; [exact Hp|]. left. now split.
Qed.

Section LoopFacts.

Variable c : core.
Variable T : width.

(** With only quiet handlers about, the loop of [atomic_incr] ends
    within one iteration more than there are interruptions, having
    stored and returned [oldValue + delta]. *)
Lemma incr_loop_quiet (sched : list irq) :
  forall (fuel : nat) (delta : Z) (m : machine),
    Forall quiet sched -> (length sched < fuel)%nat ->
    exists m',
      incr_loop c T fuel sched (wrap (bits T) (cell m)) delta m
      = (Some (add_T T (cell m) delta), m') /\
      cell m' = add_T T (cell m) delta /\ primask m' = primask m.
Proof.
  induction sched as [|i sched IH]; intros fuel delta m Hq Hf.
  - destruct fuel as [|fuel]; [simpl in Hf; lia|].
    destruct (cas_hit c T m (add_T T (wrap (bits T) (cell m)) delta))
      as (m' & E & Hc & Hp).
    exists m'. simpl. unfold bind. rewrite E. unfold ret.
    unfold add_T, wrap in *. rewrite Zplus_mod_idemp_l in *.
    rewrite Hc, Zmod_mod. auto.
  - destruct fuel as [|fuel]; [simpl in Hf; lia|].
    inversion Hq as [|? ? Hi Hq']; subst.
    destruct (cas_quiet c T i m (add_T T (wrap (bits T) (cell m)) delta) Hi)
      as (m' & Hp & [[E Hc] | (E & Hc & _)]).
    + exists m'. simpl. unfold bind. rewrite E. unfold ret.
      unfold add_T, wrap in *. rewrite Zplus_mod_idemp_l in *.
      rewrite Hc, Zmod_mod. auto.
    + simpl. unfold bind. rewrite E. fold (incr_loop c T).
      rewrite <- Hc. simpl in Hf.
      destruct (IH fuel delta m' Hq' ltac:(lia)) as (m'' & E' & Hc' & Hp').
      exists m''. rewrite E', Hc', Hp'. auto.
Qed.

(** The same for the loop of [atomic_decr]. *)
Lemma decr_loop_quiet (sched : list irq) :
  forall (fuel : nat) (delta : Z) (m : machine),
    Forall quiet sched -> (length sched < fuel)%nat ->
    exists m',
      decr_loop c T fuel sched (wrap (bits T) (cell m)) delta m
      = (Some (sub_T T (cell m) delta), m') /\
      cell m' = sub_T T (cell m) delta /\ primask m' = primask m.
Proof.
  induction sched as [|i sched IH]; intros fuel delta m Hq Hf.
  - destruct fuel as [|fuel]; [simpl in Hf; lia|].
    destruct (cas_hit c T m (sub_T T (wrap (bits T) (cell m)) delta))
      as (m' & E & Hc & Hp).
    exists m'. simpl. unfold bind. rewrite E. unfold ret.
    unfold sub_T, wrap in *. rewrite Zminus_mod_idemp_l in *.
    rewrite Hc, Zmod_mod. auto.
  - destruct fuel as [|fuel]; [simpl in Hf; lia|].
    inversion Hq as [|? ? Hi Hq']; subst.
    destruct (cas_quiet c T i m (sub_T T (wrap (bits T) (cell m)) delta) Hi)
      as (m' & Hp & [[E Hc] | (E & Hc & _)]).
    + exists m'. simpl. unfold bind. rewrite E. unfold ret.
      unfold sub_T, wrap in *. rewrite Zminus_mod_idemp_l in *.
      rewrite Hc, Zmod_mod. auto.
    + simpl. unfold bind. rewrite E. fold (decr_loop c T).
      rewrite <- Hc. simpl in Hf.
      destruct (IH fuel delta m' Hq' ltac:(lia)) as (m'' & E' & Hc' & Hp').
      exists m''. rewrite E', Hc', Hp'. auto.
Qed.

Lemma atomic_incr_quiet (fuel : nat) (sched : list irq) (delta : Z)
  (m : machine) :
  Forall quiet sched -> (length sched < fuel)%nat ->
  exists m',
    atomic_incr c T fuel sched delta m = (Some (add_T T (cell m) delta), m') /\
    cell m' = add_T T (cell m) delta /\ primask m' = primask m.
Proof.
  intros Hq Hf. unfold atomic_incr, bind, load.
  now apply incr_loop_quiet.
Qed.

Lemma atomic_decr_quiet (fuel : nat) (sched : list irq) (delta : Z)
  (m : machine) :
  Forall quiet sched -> (length sched < fuel)%nat ->
  exists m',
    atomic_decr c T fuel sched delta m = (Some (sub_T T (cell m) delta), m') /\
    cell m' = sub_T T (cell m) delta /\ primask m' = primask m.
Proof.
  intros Hq Hf. unfold atomic_decr, bind, load.
  now apply decr_loop_quiet.
Qed.

End LoopFacts.

Lemma mul_T_step (T : width) (j d : Z) :
  add_T T (mul_T T j d) d = mul_T T (j + 1) d.
Proof.
  unfold add_T, mul_T, wrap. rewrite Zplus_mod_idemp_l.
  f_equal. ring.
Qed.

(** Calls of [atomic_incr] in a row, starting from a cell that holds
    [j * delta]. *)
Lemma incr_calls_from (c : core) (T : width) (fuel : nat) (delta : Z)
  (scheds : list (list irq)) :
  forall (j : Z) (m : machine),
    cell m = mul_T T j delta ->
    Forall (Forall quiet) scheds ->
    Forall (fun sched => (length sched < fuel)%nat) scheds ->
    exists m',
      incr_calls c T fuel scheds delta m
      = (map (fun k => Some (mul_T T (j + Z.of_nat k) delta))
             (seq 1 (length scheds)), m') /\
      cell m' = mul_T T (j + Z.of_nat (length scheds)) delta.
Proof.
  induction scheds as [|sched rest IH]; intros j m Hc Hq Hf.
  - exists m. simpl. rewrite Z.add_0_r. auto.
  - inversion Hq as [|? ? Hq1 Hq2]; inversion Hf as [|? ? Hf1 Hf2]; subst.
    destruct (atomic_incr_quiet c T fuel sched delta m Hq1 Hf1)
      as (m1 & E1 & Hc1 & _).
    rewrite Hc, mul_T_step in E1, Hc1.
    destruct (IH (j + 1) m1 Hc1 Hq2 Hf2) as (m2 & E2 & Hc2).
    exists m2. split.
    + cbn [incr_calls]. unfold bind at 1. rewrite E1.
      unfold bind at 1. rewrite E2. unfold ret.
      cbn [length seq map]. f_equal. f_equal.
      rewrite <- (seq_shift (length rest) 1), map_map.
      apply map_ext. intros k. do 2 f_equal. lia.
    + rewrite Hc2. cbn [length]. f_equal. lia.
Qed.

(** C3. Sequential increments accumulate.  [N] calls of
    [atomic_incr(cell, d)] in a row on a cell holding 0, on either core and
    at each width, with no agent changing the cell's value, all return,
    whatever reservations are lost on the way (each call retried as often
    as its schedule makes it); the [k]-th call returns [k * d] and the
    cell ends up holding [N * d], the products being taken in the cell's
    type.  As long as [N * d] fits the type, that is [N * d] itself. *)
Theorem incr_calls_accumulate (c : core) (T : width) (N fuel : nat)
  (scheds : list (list irq)) (d : Z) (m : machine) :
  length scheds = N ->
  cell m = 0 ->
  Forall (Forall quiet) scheds ->
  Forall (fun sched => (length sched < fuel)%nat) scheds ->
  let r := incr_calls c T fuel scheds d m in
  fst r = map (fun k => Some (mul_T T (Z.of_nat k) d)) (seq 1 N) /\
  cell (final r) = mul_T T (Z.of_nat N) d /\
  (in_range (bits T) (Z.of_nat N * d) -> cell (final r) = Z.of_nat N * d).
Proof.
  intros HN Hc Hq Hf. cbv zeta.
  assert (H0 : cell m = mul_T T 0 d).
  { rewrite Hc. unfold mul_T, wrap. now rewrite Z.mul_0_l, Zmod_0_l. }
  destruct (incr_calls_from c T fuel d scheds 0 m H0 Hq Hf) as (m' & E & Hc').
  rewrite E, HN in *. unfold final. cbn [fst snd].
  rewrite Hc'. cbn [Z.add]. repeat split.
  intros Hr. now apply wrap_small.
Qed.

Lemma incr_calls_accumulate_witness :
  let m := {| cell := 0; monitor := false; primask := false |} in
  let scheds := [[Some (fun v => v)]; []; [Some (fun v => v); None]] in
  let r := incr_calls CortexM3 W8 3 scheds 100 m in
  fst r = [Some 100; Some 200; Some 44] /\ cell (final r) = 44.
Proof.
  cbv zeta.
  destruct (incr_calls_accumulate CortexM3 W8 3 3
              [[Some (fun v => v)]; []; [Some (fun v => v); None]] 100
              {| cell := 0; monitor := false; primask := false |})
    as (H1 & H2 & _).
  - reflexivity.
  - reflexivity.
  - repeat constructor; simpl; auto.
  - repeat constructor; simpl; lia.
  - split; [exact H1 | exact H2].
Defined.

(** A call with nothing interfering, spelled out. *)
Lemma atomic_incr_serial (c : core) (T : width) (fuel : nat) (d : Z)
  (m : machine) :
  exists m',
    atomic_incr c T (S fuel) [] d m = (Some (add_T T (cell m) d), m') /\
    cell m' = add_T T (cell m) d /\ primask m' = primask m.
Proof. apply atomic_incr_quiet; [constructor | simpl; lia]. Qed.

Lemma atomic_decr_serial (c : core) (T : width) (fuel : nat) (d : Z)
  (m : machine) :
  exists m',
    atomic_decr c T (S fuel) [] d m = (Some (sub_T T (cell m) d), m') /\
    cell m' = sub_T T (cell m) d /\ primask m' = primask m.
Proof. apply atomic_decr_quiet; [constructor | simpl; lia]. Qed.

(** C6. Decrement mirrors increment.  On either core and at each width, an
    uninterrupted [atomic_decr(cell, d)] on a cell holding [v] stores
    [v - d] and returns it, and an uninterrupted [atomic_incr(cell, d)]
    stores [v + d] and returns it, the difference and the sum being those
    of the cell's type (and [v - d] and [v + d] themselves when they fit
    it): the candidate is computed from [v], the value the successful
    compare-and-set found in the cell. *)
Theorem decr_mirrors_incr (c : core) (T : width) (fuel : nat) (v d : Z)
  (m : machine) :
  cell m = v ->
  let rd := atomic_decr c T (S fuel) [] d m in
  let ri := atomic_incr c T (S fuel) [] d m in
  (fst rd = Some (sub_T T v d) /\ cell (final rd) = sub_T T v d /\
   (in_range (bits T) (v - d) ->
    fst rd = Some (v - d) /\ cell (final rd) = v - d)) /\
  (fst ri = Some (add_T T v d) /\ cell (final ri) = add_T T v d /\
   (in_range (bits T) (v + d) ->
    fst ri = Some (v + d) /\ cell (final ri) = v + d)).
Proof.
  intros Hc. cbv zeta.
  destruct (atomic_decr_serial c T fuel d m) as (md & Ed & Hd & _).
  destruct (atomic_incr_serial c T fuel d m) as (mi & Ei & Hi & _).
  rewrite Ed, Ei. unfold final. cbn [fst snd]. rewrite Hd, Hi, Hc.
  unfold sub_T, add_T.
  split; (split; [reflexivity | split; [reflexivity |]]);
    intros Hr; rewrite (wrap_small _ _ Hr); split; reflexivity.
Qed.

Lemma decr_mirrors_incr_witness :
  let m := {| cell := 10; monitor := false; primask := false |} in
  (fst (atomic_decr CortexM0 W16 1 [] 3 m) = Some 7 /\
   cell (final (atomic_decr CortexM0 W16 1 [] 3 m)) = 7) /\
  (fst (atomic_incr CortexM0 W16 1 [] 3 m) = Some 13 /\
   cell (final (atomic_incr CortexM0 W16 1 [] 3 m)) = 13).
Proof.
  cbv zeta.
  destruct (decr_mirrors_incr CortexM0 W16 0 10 3
              {| cell := 10; monitor := false; primask := false |} eq_refl)
    as ((H1 & H2 & _) & (H3 & H4 & _)).
  repeat split; assumption.
Defined.

(** C7. With no interfering agent the retry loops end, and they end in
    their first iteration: on either core and at each width, for every
    cell value and delta, the first [atomic_cas] of [atomic_incr] and of
    [atomic_decr] returns [true]; the two functions return when allowed a
    single iteration, return the same whatever larger bound is allowed,
    and do not return when allowed none. *)
Theorem serial_loops_take_one_iteration (c : core) (T : width) (d : Z)
  (m : machine) :
  let oldValue := wrap (bits T) (cell m) in
  (returned (atomic_cas c T None oldValue (add_T T oldValue d) m) = true /\
   fst (atomic_incr c T 1 [] d m) <> None /\
   (forall fuel, atomic_incr c T (S fuel) [] d m = atomic_incr c T 1 [] d m) /\
   fst (atomic_incr c T 0 [] d m) = None) /\
  (returned (atomic_cas c T None oldValue (sub_T T oldValue d) m) = true /\
   fst (atomic_decr c T 1 [] d m) <> None /\
   (forall fuel, atomic_decr c T (S fuel) [] d m = atomic_decr c T 1 [] d m) /\
   fst (atomic_decr c T 0 [] d m) = None).
Proof.
  cbv zeta. split.
  - destruct (cas_hit c T m (add_T T (wrap (bits T) (cell m)) d))
      as (m' & E & _).
    split; [now rewrite E|].
    unfold atomic_incr, bind, load. cbn [incr_loop hd tl]. unfold bind.
    rewrite E. cbn. repeat split; discriminate.
  - destruct (cas_hit c T m (sub_T T (wrap (bits T) (cell m)) d))
      as (m' & E & _).
    split; [now rewrite E|].
    unfold atomic_decr, bind, load. cbn [decr_loop hd tl]. unfold bind.
    rewrite E. cbn. repeat split; discriminate.
Qed.

(** C9. Increment and decrement wrap around.  On either core and at each
    width of [w] bits, an uninterrupted [atomic_incr] on a cell holding
    [v] stores and returns [(v + d) mod 2^w], and [atomic_decr] stores and
    returns [(v - d) mod 2^w]; an 8-bit cell holding 0xFF incremented by 1
    holds 0, and a cell holding 0 decremented by 1 holds the largest value
    of its type. *)
Theorem incr_decr_wrap_around (c : core) :
  (forall (T : width) (v d : Z) (m : machine),
     cell m = v ->
     let ri := atomic_incr c T 1 [] d m in
     let rd := atomic_decr c T 1 [] d m in
     (fst ri = Some ((v + d) mod 2 ^ bits T) /\
      cell (final ri) = (v + d) mod 2 ^ bits T) /\
     (fst rd = Some ((v - d) mod 2 ^ bits T) /\
      cell (final rd) = (v - d) mod 2 ^ bits T)) /\
  (forall m : machine,
     cell m = 255 ->
     let ri := atomic_incr c W8 1 [] 1 m in
     fst ri = Some 0 /\ cell (final ri) = 0) /\
  (forall (T : width) (m : machine),
     cell m = 0 ->
     let rd := atomic_decr c T 1 [] 1 m in
     fst rd = Some (2 ^ bits T - 1) /\ cell (final rd) = 2 ^ bits T - 1).
Proof.
  assert (general : forall (T : width) (v d : Z) (m : machine),
     cell m = v ->
     let ri := atomic_incr c T 1 [] d m in
     let rd := atomic_decr c T 1 [] d m in
     (fst ri = Some ((v + d) mod 2 ^ bits T) /\
      cell (final ri) = (v + d) mod 2 ^ bits T) /\
     (fst rd = Some ((v - d) mod 2 ^ bits T) /\
      cell (final rd) = (v - d) mod 2 ^ bits T)).
  { intros T v d m Hc. cbv zeta.
    destruct (atomic_decr_serial c T 0 d m) as (md & Ed & Hd & _).
    destruct (atomic_incr_serial c T 0 d m) as (mi & Ei & Hi & _).
    rewrite Ed, Ei. unfold final. cbn [fst snd].
    rewrite Hd, Hi, Hc. unfold add_T, sub_T, wrap. auto. }
  split; [exact general|]. split.
  - intros m Hc. exact (proj1 (general W8 255 1 m Hc)).
  - intros T m Hc. cbv zeta.
    destruct (general T 0 1 m Hc) as (_ & H1 & H2).
    rewrite H1, H2. destruct T; auto.
Qed.

Lemma incr_decr_wrap_around_witness :
  let m0 := {| cell := 0; monitor := false; primask := false |} in
  let m255 := {| cell := 255; monitor := false; primask := false |} in
  (fst (atomic_incr CortexM3 W8 1 [] 1 m255) = Some 0 /\
   cell (final (atomic_incr CortexM3 W8 1 [] 1 m255)) = 0) /\
  (fst (atomic_decr CortexM3 W32 1 [] 1 m0) = Some 4294967295 /\
   cell (final (atomic_decr CortexM3 W32 1 [] 1 m0)) = 4294967295).
Proof.
  cbv zeta.
  destruct (incr_decr_wrap_around CortexM3) as (_ & H255 & H0).
  split.
  - exact (H255 {| cell := 255; monitor := false; primask := false |} eq_refl).
  - exact (H0 W32 {| cell := 0; monitor := false; primask := false |} eq_refl).
Defined.

(** C10. Increment then decrement is a round trip.  On either core and at
    each width, [atomic_incr(cell, d)] followed by [atomic_decr(cell, d)],
    both uninterrupted, on a cell holding [v] leaves [v] in the cell, and
    the second call returns [v]. *)
Theorem incr_then_decr_round_trip (c : core) (T : width) (v d : Z)
  (m : machine) :
  in_range (bits T) v ->
  cell m = v ->
  let rd := atomic_decr c T 1 [] d (final (atomic_incr c T 1 [] d m)) in
  cell (final rd) = v /\ fst rd = Some v.
Proof.
  intros Hv Hc. cbv zeta.
  destruct (atomic_incr_serial c T 0 d m) as (mi & Ei & Hi & _).
  rewrite Ei. change (final (Some (add_T T (cell m) d), mi)) with mi.
  destruct (atomic_decr_serial c T 0 d mi) as (md & Ed & Hd & _).
  rewrite Ed. unfold final. cbn [fst snd]. rewrite Hd, Hi, Hc.
  assert (E : sub_T T (add_T T v d) d = v).
  { unfold sub_T, add_T, wrap. rewrite Zminus_mod_idemp_l.
    replace (v + d - d) with v by ring. now apply Z.mod_small. }
  now rewrite E.
Qed.

Lemma incr_then_decr_round_trip_witness :
  let m := {| cell := 250; monitor := true; primask := true |} in
  let rd := atomic_decr CortexM3 W8 1 [] 9 (final (atomic_incr CortexM3 W8 1 [] 9 m)) in
  in_range 8 250 /\ cell (final rd) = 250 /\ fst rd = Some 250.
Proof.
  cbv zeta.
  assert (H : in_range (bits W8) 250) by (unfold in_range; simpl; lia).
  split; [exact H|].
  exact (incr_then_decr_round_trip CortexM3 W8 250 9
           {| cell := 250; monitor := true; primask := true |} H eq_refl).
Defined.

(* ================================================================= *)
(** ** Interleavings *)

Lemma LDREX_eq T : __LDREX T = ldrex (bits T).
Proof. destruct T; reflexivity. Qed.

Lemma STREX_eq T v : __STREX T v = strex (bits T) v.
Proof. destruct T; reflexivity. Qed.

(** Evaluation that leaves the arithmetic alone. *)
Ltac simp := cbn -[Z.of_nat add_T wrap Z.eqb Z.add Z.sub Z.opp Z.mul].

(** The agent still has a call to make. *)
Ltac calls_left :=
  match goal with
  | H : _ <> Next -> (0 < _)%nat |- _ =>
      assert (0 < _)%nat by (apply H; discriminate); clear H
  end.

(** Closes the cases in which the statement does not write the cell. *)
Ltac unchanged :=
  split; [repeat split; intros; subst; auto; lia | left; split; auto; lia].

(** A statement of the running agent keeps what the agent knows, and
    either leaves the cell alone or adds the agent's delta to it while
    the call becomes committed. *)
Lemma step_ok (c : core) (T : width) (d : Z) (a a' : agent) (m m' : machine) :
  step c T d a m = (a', m') ->
  agent_ok T m true d a ->
  agent_ok T m' true d a' /\
  ((cell m' = cell m /\ progress a' = progress a) \/
   (cell m' = add_T T (wrap (bits T) (cell m)) d /\
    progress a' = progress a + 1)).
Proof.
  unfold step, agent_ok, progress, committed.
  destruct a as [l n old new cur prev r rets]; cbn [pc calls oldValue newValue
    currentValue previousPRIMASK rc returns].
  rewrite LDREX_eq, STREX_eq.
  destruct l; simp; intros E (Hn & H).
  - (* Next *)
    destruct n; inversion E; subst; simp; unchanged.
  - (* IncrRead *)
    calls_left. inversion E; subst; simp; unchanged.
  - (* IncrNew *)
    calls_left. inversion E; subst.
    destruct c; simp; unchanged.
  - (* ExLoad *)
    calls_left. inversion E; subst. simp. unchanged.
  - (* ExTest *)
    calls_left. inversion E; subst. destruct H as (H1 & H2).
    destruct (Z.eqb_spec cur old); simp; unchanged.
  - (* ExRefresh *)
    calls_left. inversion E; subst. simp. unchanged.
  - (* ExClear *)
    calls_left. inversion E; subst. simp. unchanged.
  - (* ExStore *)
    calls_left. destruct H as (H1 & H2). unfold strex in E.
    destruct (monitor m) eqn:Hm; inversion E; subst;
      simp; [|unchanged].
    split; [split; [lia | exact I]|]. right. rewrite <- H2 by auto.
    split; [|lia]. unfold add_T. now rewrite wrap_wrap.
  - (* MkSave *)
    calls_left. inversion E; subst. simp. unchanged.
  - (* MkDisable *)
    calls_left. destruct H as (H1 & H2).
    inversion E; subst. simp. unchanged.
  - (* MkLoad *)
    calls_left. destruct H as (H1 & H2 & H3 & H4).
    inversion E; subst. simp. unchanged.
  - (* MkTest *)
    calls_left. inversion E; subst. destruct H as (H1 & H2 & H3 & H4 & H5).
    destruct (Z.eqb_spec cur old); simp; unchanged.
  - (* MkStore *)
    calls_left. destruct H as (H1 & H2 & H3 & H4 & H5).
    inversion E; subst. simp.
    split; [split; [lia | exact I]|]. right.
    split; [|lia]. unfold add_T. now rewrite wrap_wrap.
  - (* MkRefresh *)
    calls_left. inversion E; subst. simp. unchanged.
  - (* MkRestore *)
    calls_left. destruct (prev =? 0); inversion E; subst; simp;
      unchanged.
  - (* IncrTest *)
    calls_left. inversion E; subst. destruct r; simp; unchanged.
  - (* IncrReturn *)
    calls_left. inversion E; subst. simp.
    split; [split; [intros H'; now elim H' | exact I]|].
    left. split; [reflexivity | lia].
Qed.

(** What an agent that is not running knows does not depend on the
    machine. *)
Lemma agent_ok_waiting (T : width) (m m' : machine) (d : Z) (a : agent) :
  agent_ok T m false d a -> agent_ok T m' false d a.
Proof.
  unfold agent_ok. intros (Hn & H). split; [exact Hn|].
  destruct (pc a); try exact H.
  - split; [tauto | intros; discriminate].
  - split; [tauto | intros; discriminate].
  - assert (false = true) by tauto. discriminate.
  - assert (false = true) by tauto. discriminate.
  - assert (false = true) by tauto. discriminate.
Qed.

(** Taking an exception, possible only with PRIMASK clear, leaves no
    reservation; every agent still knows what it should, whoever runs
    next. *)
Lemma agent_ok_switch (T : width) (m : machine) (me me' : bool) (d : Z)
  (a : agent) :
  primask m = false ->
  agent_ok T m me d a -> agent_ok T (set_monitor false m) me' d a.
Proof.
  unfold agent_ok. intros Hp (Hn & H). split; [exact Hn|].
  destruct (pc a); try exact H; simpl.
  - split; [tauto | intros; discriminate].
  - split; [tauto | intros; discriminate].
  - assert (primask m = true) by tauto. congruence.
  - assert (primask m = true) by tauto. congruence.
  - assert (primask m = true) by tauto. congruence.
Qed.

Section Interleavings.

Variable c : core.
Variable T : width.
Variable delta : bool -> Z.
Variable total : bool -> nat.

Lemma exec_invariant (t : bool) (s : system) :
  running s = t ->
  invariant T delta total s -> invariant T delta total (exec c T delta t s).
Proof.
  intros Hr (Hcell & Hok). unfold exec.
  destruct (step c T (delta t) (agents s t) (mach s)) as [a' m'] eqn:E.
  pose proof (Hok t) as Ht. rewrite Hr, Bool.eqb_reflx in Ht.
  destruct (step_ok c T (delta t) _ _ _ _ E Ht) as (Ha' & Hstep).
  split; cbn [mach running agents].
  - unfold update.
    destruct Hstep as [(Hc & Hp) | (Hc & Hp)]; rewrite Hc, Hcell;
      destruct t; cbn [Bool.eqb]; rewrite Hp; unfold add_T, wrap;
      rewrite ?Zmod_mod, ?Zplus_mod_idemp_l; f_equal; ring.
  - intros u. unfold update. destruct (Bool.eqb u t) eqn:Eu.
    + apply Bool.eqb_prop in Eu. subst u. exact Ha'.
    + apply agent_ok_waiting with (m := mach s).
      specialize (Hok u). now rewrite Hr, Eu in Hok.
Qed.

Lemma sched_invariant (s : system) (t : bool) :
  invariant T delta total s -> invariant T delta total (sched c T delta s t).
Proof.
  intros Hinv. unfold sched.
  destruct (Bool.eqb t (running s)) eqn:Et.
  - apply exec_invariant; [|exact Hinv].
    symmetry. now apply Bool.eqb_prop.
  - destruct (primask (mach s)) eqn:Hp; [exact Hinv|].
    apply exec_invariant; [reflexivity|].
    destruct Hinv as (Hcell & Hok). split; cbn [mach running agents].
    + exact Hcell.
    + intros u. now apply agent_ok_switch with (me := Bool.eqb u (running s)).
Qed.

Lemma interleave_invariant (schedule : list bool) :
  forall s, invariant T delta total s ->
            invariant T delta total (interleave c T delta schedule s).
Proof.
  unfold interleave.
  induction schedule as [|t schedule IH]; intros s Hinv; simpl.
  - exact Hinv.
  - apply IH. now apply sched_invariant.
Qed.

End Interleavings.

Lemma streams_invariant (T : width) (a b : nat) (d1 d2 : Z) (m : machine)
  (first : bool) :
  cell m = 0 ->
  invariant T (deltas d1 d2) (fun t => if t then b else a)
    (streams a b m first).
Proof.
  intros Hc. split; cbn [mach running agents streams].
  - rewrite Hc. unfold progress, committed, fresh; cbn [pc calls Z.b2z].
    replace ((Z.of_nat a + (0 - Z.of_nat a)) * deltas d1 d2 false +
             (Z.of_nat b + (0 - Z.of_nat b)) * deltas d1 d2 true)
      with 0 by ring.
    reflexivity.
  - intros t. unfold agent_ok. destruct t; cbn; split; auto; congruence.
Qed.

Lemma steps_S (c : core) (T : width) (d : Z) (n : nat) (a : agent)
  (m : machine) :
  steps c T d (S n) (a, m) = steps c T d n (step c T d a m).
Proof. reflexivity. Qed.

(** Executes the next statement of a run whose agent and machine are
    known. *)
Ltac run_step :=
  rewrite steps_S; unfold step at 1;
  cbn [pc calls oldValue newValue currentValue previousPRIMASK rc returns];
  rewrite ?LDREX_eq, ?STREX_eq;
  unfold load, store, ldrex, strex, __CLREX, __get_PRIMASK, __disable_irq,
    __enable_irq, ret, goto, leave, set_oldValue, set_newValue,
    set_currentValue, set_previousPRIMASK, set_rc, set_cell, set_monitor,
    set_primask;
  cbn [pc calls oldValue newValue currentValue previousPRIMASK rc returns
       cell monitor primask pred];
  rewrite ?Z.eqb_refl; cbn [negb].

(** The eight statements of an uninterrupted call through the exclusive
    monitor. *)
Lemma solo_call_M3 (T : width) (d : Z) (k : nat) (old new cur prev : Z)
  (r : bool) (rets : list Z) (m : machine) :
  let v := wrap (bits T) (cell m) in
  steps CortexM3 T d 8 (Agent Next (S k) old new cur prev r rets, m)
  = (Agent Next k v (add_T T v d) v prev true (add_T T v d :: rets),
     {| cell := wrap (bits T) (add_T T v d); monitor := false;
        primask := primask m |}).
Proof. cbv zeta. do 8 run_step. reflexivity. Qed.

(** The eleven statements of an uninterrupted call under masked
    interrupts. *)
Lemma solo_call_M0 (T : width) (d : Z) (k : nat) (old new cur prev : Z)
  (r : bool) (rets : list Z) (m : machine) :
  let v := wrap (bits T) (cell m) in
  steps CortexM0 T d 11 (Agent Next (S k) old new cur prev r rets, m)
  = (Agent Next k v (add_T T v d) v (Z.b2z (primask m)) true
       (add_T T v d :: rets),
     {| cell := wrap (bits T) (add_T T v d); monitor := monitor m;
        primask := primask m |}).
Proof.
  cbv zeta. do 9 run_step. rewrite Zeqb_b2z_0.
  destruct m as [cl mo pm]; destruct pm; cbn [negb primask cell monitor];
    do 2 run_step; reflexivity.
Qed.

(** Followed statement by statement, an uninterrupted call does what
    [atomic_incr] does: it leaves the same machine and returns the same
    value, and the agent is back between calls with one call less to
    make. *)
Lemma solo_call (c : core) (T : width) (d : Z) (a : agent) (m : machine)
  (k : nat) :
  pc a = Next -> calls a = S k ->
  let r := atomic_incr c T 1 [] d m in
  let am := steps c T d (call_length c) (a, m) in
  pc (fst am) = Next /\ calls (fst am) = k /\
  fst r = Some (newValue (fst am)) /\
  returns (fst am) = newValue (fst am) :: returns a /\
  snd am = final r.
Proof.
  destruct a as [l n old new cur prev r rets]. cbn [pc calls].
  intros -> ->. cbv zeta.
  unfold atomic_incr, bind, load. cbn [incr_loop hd]. unfold bind.
  destruct c; unfold call_length.
  - rewrite solo_call_M3, atomic_cas_M3, cas_excl_serial, Z.eqb_refl.
    unfold ret, final. destruct m. repeat split.
  - rewrite solo_call_M0. simpl atomic_cas.
    rewrite cas_m0_eval, Z.eqb_refl.
    unfold ret, final. destruct m. repeat split.
Qed.

Lemma steps_add (c : core) (T : width) (d : Z) (n n' : nat) :
  forall am, steps c T d (n + n') am = steps c T d n' (steps c T d n am).
Proof. induction n as [|n IH]; intros am; simpl; auto. Qed.

(** An uninterrupted call leaves PRIMASK as it was. *)
Lemma solo_call_primask (c : core) (T : width) (d : Z) (a : agent)
  (m : machine) (k : nat) :
  pc a = Next -> calls a = S k ->
  primask (snd (steps c T d (call_length c) (a, m))) = primask m.
Proof.
  intros Hp Hk.
  destruct (solo_call c T d a m k Hp Hk) as (_ & _ & _ & _ & E).
  rewrite E. destruct (atomic_incr_serial c T 0 d m) as (m' & E' & _ & Hm).
  now rewrite E'.
Qed.

(** [k] uninterrupted calls in a row. *)
Lemma solo_calls (c : core) (T : width) (d : Z) (k : nat) :
  forall (a : agent) (m : machine) (j : nat),
    pc a = Next -> calls a = (k + j)%nat ->
    let am := steps c T d (k * call_length c) (a, m) in
    pc (fst am) = Next /\ calls (fst am) = j /\
    primask (snd am) = primask m.
Proof.
  induction k as [|k IH]; intros a m j Hp Hk; cbv zeta.
  - simpl in *. auto.
  - cbn [Nat.mul]. rewrite steps_add.
    destruct (solo_call c T d a m (k + j) Hp Hk) as (Hp' & Hk' & _).
    pose proof (solo_call_primask c T d a m (k + j) Hp Hk) as Hm.
    destruct (steps c T d (call_length c) (a, m)) as [a' m'].
    cbn [fst snd] in *.
    destruct (IH a' m' j Hp' Hk') as (H1 & H2 & H3).
    rewrite <- Hm. auto.
Qed.

Section Alone.

Variable c : core.
Variable T : width.
Variable delta : bool -> Z.

Lemma sched_running (s : system) (t : bool) :
  running s = t -> sched c T delta s t = exec c T delta t s.
Proof. intros <-. unfold sched. now rewrite Bool.eqb_reflx. Qed.

Lemma exec_spec (t : bool) (s : system) :
  let s' := exec c T delta t s in
  running s' = t /\
  (agents s' t, mach s') = step c T (delta t) (agents s t) (mach s) /\
  agents s' (negb t) = agents s (negb t).
Proof.
  cbv zeta. unfold exec.
  destruct (step c T (delta t) (agents s t) (mach s)) as [a' m'].
  cbn [mach running agents]. unfold update.
  rewrite Bool.eqb_reflx. destruct t; auto.
Qed.

(** While the agent [t] is the only one scheduled, the system follows the
    statements of [t]. *)
Lemma interleave_alone (t : bool) (n : nat) :
  forall s, running s = t ->
    let s' := interleave c T delta (repeat t n) s in
    let am := steps c T (delta t) n (agents s t, mach s) in
    running s' = t /\ mach s' = snd am /\ agents s' t = fst am /\
    agents s' (negb t) = agents s (negb t).
Proof.
  unfold interleave.
  induction n as [|n IH]; intros s Hr; cbv zeta.
  - simpl. auto.
  - cbn [repeat fold_left]. rewrite (sched_running s t Hr).
    destruct (exec_spec t s) as (E1 & E2 & E3).
    destruct (IH (exec c T delta t s) E1) as (H1 & H2 & H3 & H4).
    rewrite H1, H2, H3, H4, E2, E3.
    cbn [steps fst snd]. auto.
Qed.

(** Calls of [t] in a row, when [t] is running or can take the processor
    over because PRIMASK is clear. *)
Lemma run_calls (t : bool) (k j : nat) (s : system) :
  running s = t \/ primask (mach s) = false ->
  pc (agents s t) = Next -> calls (agents s t) = (k + j)%nat ->
  let s' := interleave c T delta (repeat t (k * call_length c)) s in
  pc (agents s' t) = Next /\ calls (agents s' t) = j /\
  agents s' (negb t) = agents s (negb t) /\
  primask (mach s') = primask (mach s).
Proof.
  assert (alone : forall s0, running s0 = t ->
            pc (agents s0 t) = Next -> calls (agents s0 t) = (k + j)%nat ->
            let s' := interleave c T delta (repeat t (k * call_length c)) s0 in
            pc (agents s' t) = Next /\ calls (agents s' t) = j /\
            agents s' (negb t) = agents s0 (negb t) /\
            primask (mach s') = primask (mach s0)).
  { intros s0 Hr Hp Hk. cbv zeta.
    destruct (interleave_alone t (k * call_length c) s0 Hr)
      as (_ & H2 & H3 & H4).
    destruct (solo_calls c T (delta t) k (agents s0 t) (mach s0) j Hp Hk)
      as (H5 & H6 & H7).
    rewrite H2, H3, H4. auto. }
  intros [Hr | Hm] Hp Hk; [now apply alone|]. cbv zeta.
  destruct (Bool.eqb t (running s)) eqn:Et.
  { apply alone; auto. symmetry. now apply Bool.eqb_prop. }
  destruct (k * call_length c)%nat as [|n] eqn:En.
  - destruct k; [|destruct c; discriminate]. simpl in *. auto.
  - set (s0 := {| mach := set_monitor false (mach s); running := t;
                  agents := agents s |}).
    assert (E : interleave c T delta (repeat t (S n)) s
                = interleave c T delta (repeat t (S n)) s0).
    { unfold interleave. cbn [repeat fold_left]. f_equal.
      unfold sched. rewrite Et, Hm. subst s0. cbn [running].
      now rewrite Bool.eqb_reflx. }
    rewrite E. exact (alone s0 eq_refl Hp Hk).
Qed.

End Alone.

(** Some interleaving lets both streams through: when interrupts are
    enabled at the start, the first stream can make all its calls and the
    second all of its own after it. *)
Lemma streams_can_finish (c : core) (T : width) (a b : nat) (d1 d2 : Z)
  (m : machine) (first : bool) :
  primask m = false ->
  let schedule := repeat false (a * call_length c)
                  ++ repeat true (b * call_length c) in
  let s := interleave c T (deltas d1 d2) schedule (streams a b m first) in
  finished (agents s false) /\ finished (agents s true).
Proof.
  intros Hm. cbv zeta. unfold interleave. rewrite fold_left_app.
  fold (interleave c T (deltas d1 d2) (repeat false (a * call_length c))
          (streams a b m first)).
  set (s0 := streams a b m first).
  destruct (run_calls c T (deltas d1 d2) false a 0 s0)
    as (H1 & H2 & H3 & H4); [now right | reflexivity | | ].
  { cbn. now rewrite Nat.add_0_r. }
  set (s1 := interleave c T (deltas d1 d2) (repeat false (a * call_length c))
               s0) in *.
  fold (interleave c T (deltas d1 d2) (repeat true (b * call_length c)) s1).
  cbn [negb] in H3.
  destruct (run_calls c T (deltas d1 d2) true b 0 s1)
    as (H5 & H6 & H7 & H8).
  - right. now rewrite H4.
  - now rewrite H3.
  - rewrite H3. cbn. now rewrite Nat.add_0_r.
  - cbn [negb] in H7. unfold finished. rewrite H7. auto.
Qed.

(** While the interrupt-masking [atomic_cas] runs with interrupts already
    masked, PRIMASK stays set after each of its statements. *)
Lemma masked_cas_stays_masked (c : core) (T : width) (d : Z) (a : agent)
  (m : machine) (k : nat) :
  pc a = MkSave -> primask m = true -> (k <= 6)%nat ->
  primask (snd (steps c T d k (a, m))) = true.
Proof.
  destruct a as [l n old new cur prev r rets]. cbn [pc].
  intros -> Hm Hk. destruct m as [cl mo pm]. cbn [primask] in Hm. subst pm.
  do 4 (destruct k as [|k]; [reflexivity|]).
  do 3 (destruct k as [|k];
        [cbn; destruct (wrap (bits T) cl =? old); reflexivity|]).
  lia.
Qed.

(** C5. The interrupt-masking [atomic_cas] leaves PRIMASK as it found it,
    whatever the prior state, the width and the arguments: enabled
    interrupts are enabled again on exit and masked interrupts stay
    masked.  An interrupt raised between the read and the write is not
    taken, and a call entered with interrupts masked has them masked
    after each of its six statements. *)
Theorem cas_m0_preserves_primask (n : Z) (i : irq) (e d : Z) (m : machine) :
  let r := atomic_cas_m0 n i e d m in
  primask (final r) = primask m /\
  r = atomic_cas_m0 n None e d m /\
  (forall (c : core) (T : width) (delta : Z) (a : agent) (k : nat),
     pc a = MkSave -> primask m = true -> (k <= 6)%nat ->
     primask (snd (steps c T delta k (a, m))) = true).
Proof.
  cbv zeta. rewrite !cas_m0_eval. split; [|split].
  - destruct (wrap n (cell m) =? e); reflexivity.
  - reflexivity.
  - intros. now apply masked_cas_stays_masked.
Qed.

Lemma cas_m0_preserves_primask_witness :
  let m := {| cell := 3; monitor := false; primask := true |} in
  let a := goto MkSave (set_newValue 4 (set_oldValue 3 (fresh 1))) in
  primask (final (atomic_cas_m0 8 None 3 4 m)) = true /\
  primask (snd (steps CortexM0 W8 1 4 (a, m))) = true.
Proof.
  cbv zeta.
  destruct (cas_m0_preserves_primask 8 None 3 4
              {| cell := 3; monitor := false; primask := true |})
    as (H1 & _ & H3).
  split; [exact H1|].
  apply H3; [reflexivity | reflexivity | lia].
Defined.

(** C8. No update is lost.  Two streams of [a] and [b] [atomic_incr]
    calls with deltas [d1] and [d2] run on one processor, on either core
    and at each width, on a cell holding 0.  Whatever the interleaving of
    their statements, once both streams are through the cell holds
    [a * d1 + b * d2], taken in the cell's type (and is [a * d1 + b * d2]
    itself when that fits the type); and at every moment of every
    interleaving, a store of [atomic_cas] that is about to succeed, the
    exclusive one of a running agent holding the reservation or the plain
    one under masked interrupts, writes the value the cell holds now plus
    the agent's delta.  With interrupts enabled at the start, some
    interleaving does let both streams through. *)
Theorem no_lost_updates (c : core) (T : width) (a b : nat) (d1 d2 : Z)
  (m : machine) (first : bool) :
  cell m = 0 ->
  (forall schedule : list bool,
     let s := interleave c T (deltas d1 d2) schedule (streams a b m first) in
     (finished (agents s false) -> finished (agents s true) ->
      cell (mach s) = wrap (bits T) (Z.of_nat a * d1 + Z.of_nat b * d2) /\
      (in_range (bits T) (Z.of_nat a * d1 + Z.of_nat b * d2) ->
       cell (mach s) = Z.of_nat a * d1 + Z.of_nat b * d2)) /\
     (forall t,
        (pc (agents s t) = ExStore /\ running s = t /\
         monitor (mach s) = true) \/
        pc (agents s t) = MkStore ->
        newValue (agents s t)
        = add_T T (wrap (bits T) (cell (mach s))) (deltas d1 d2 t))) /\
  (primask m = false ->
   exists schedule : list bool,
     let s := interleave c T (deltas d1 d2) schedule (streams a b m first) in
     finished (agents s false) /\ finished (agents s true)).
Proof.
  intros Hc. split.
  - intros schedule s.
    assert (Hinv : invariant T (deltas d1 d2) (fun t => if t then b else a) s).
    { apply interleave_invariant. now apply streams_invariant. }
    destruct Hinv as (Hcell & Hok). split.
    + intros (Hp0 & Hn0) (Hp1 & Hn1).
      assert (E : cell (mach s)
                  = wrap (bits T) (Z.of_nat a * d1 + Z.of_nat b * d2)).
      { rewrite Hcell. unfold progress, committed.
        rewrite Hp0, Hp1, Hn0, Hn1. cbn [Z.b2z Z.of_nat deltas].
        f_equal. ring. }
      split; [exact E|]. intros Hr. rewrite E. now apply wrap_small.
    + intros t H. specialize (Hok t). unfold agent_ok in Hok.
      destruct Hok as (_ & Hok).
      destruct H as [(Hpc & Hr & Hm) | Hpc]; rewrite Hpc in Hok.
      * destruct Hok as (Hnew & Hold). rewrite Hnew, <- Hold; auto.
        rewrite Hr. apply Bool.eqb_reflx.
      * destruct Hok as (Hnew & _ & _ & _ & Hold). now rewrite Hnew, <- Hold.
  - intros Hm. eexists. now apply streams_can_finish.
Qed.

(** Stream [false] is interrupted between its exclusive load and its
    exclusive store by the whole of stream [true]; its store fails, it
    tries again and both increments are in the cell. *)
Lemma no_lost_updates_witness :
  let m := {| cell := 0; monitor := false; primask := false |} in
  let schedule := repeat false 4 ++ repeat true 8 ++ repeat false 16 in
  let s := interleave CortexM3 W8 (deltas 3 5) schedule
             (streams 1 1 m false) in
  cell (mach s) = 8 /\ returns (agents s false) = [8] /\
  returns (agents s true) = [5].
Proof.
  cbv zeta.
  destruct (no_lost_updates CortexM3 W8 1 1 3 5
              {| cell := 0; monitor := false; primask := false |} false
              eq_refl) as (H & _).
  destruct (H (repeat false 4 ++ repeat true 8 ++ repeat false 16))
    as (Hfin & _).
  destruct Hfin as (Hcell & _).
  - split; reflexivity.
  - split; reflexivity.
  - split; [exact Hcell | split; reflexivity].
Defined.

(* ================================================================= *)
(** ** Further properties of atomic_cas *)

Lemma cas_serial_mismatch_witness :
  let m := {| cell := 7; monitor := true; primask := false |} in
  let r := atomic_cas CortexM3 W16 None 3 9 m in
  returned r = false /\ cell (final r) = 7 /\ expected_out r = 7.
Proof.
  cbv zeta.
  apply (cas_serial_mismatch CortexM3 W16
           {| cell := 7; monitor := true; primask := false |} 7 3 9).
  - unfold in_range; simpl; lia.
  - reflexivity.
  - discriminate.
Defined.


Lemma cas_lost_reservation_witness :
  let m := {| cell := 7; monitor := false; primask := false |} in
  let r := atomic_cas CortexM3 W32 (Some (fun v => v + 1)) 7 9 m in
  returned r = false /\ expected_out r = 7 /\ cell (final r) = 8.
Proof.
  cbv zeta.
  exact (cas_lost_reservation W32 (fun v => v + 1) 7 9
           {| cell := 7; monitor := false; primask := false |}
           eq_refl eq_refl).
Defined.



(** X5. The exclusive-monitor [atomic_cas] never leaves a reservation
    behind: at each width, for all arguments, from every machine state and
    whatever interrupt is raised meanwhile, the monitor is clear when the
    call returns, on the mismatch path (by [__CLREX]) as on the store
    path. *)
Theorem cas_excl_leaves_no_reservation (T : width) (i : irq) (e d : Z)
  (m : machine) :
  monitor (final (atomic_cas CortexM3 T i e d m)) = false.
Proof.
  rewrite atomic_cas_M3.
  unfold cas_excl, bind, ldrex, irq_point, strex, __CLREX, ret.
  destruct m as [cl mo pm]. cbn [cell monitor primask set_monitor set_cell].
  destruct (wrap (bits T) cl =? e); destruct i as [h|]; try destruct pm;
    reflexivity.
Qed.

(* ================================================================= *)
(** ** The retry loops under arbitrary interference *)




Section Convergence.

Variable c : core.
Variable T : width.
Variable delta : Z.



End Convergence.





(* ================================================================= *)
(** ** Calls one after the other *)

(** X8. Increments add up: on either core and at each width, two
    uninterrupted calls [atomic_incr(cell, d1)] and [atomic_incr(cell, d2)]
    in a row leave in the cell, and the second returns, what a single
    [atomic_incr] by [d1 + d2] (the sum taken in the cell's type) leaves
    and returns. *)
Theorem incr_incr_adds (c : core) (T : width) (d1 d2 : Z) (m : machine) :
  let r12 := atomic_incr c T 1 [] d2 (final (atomic_incr c T 1 [] d1 m)) in
  let r := atomic_incr c T 1 [] (add_T T d1 d2) m in
  fst r12 = fst r /\ cell (final r12) = cell (final r).
Proof.
  cbv zeta.
  destruct (atomic_incr_serial c T 0 d1 m) as (m1 & E1 & H1 & _).
  rewrite E1. change (final (Some (add_T T (cell m) d1), m1)) with m1.
  destruct (atomic_incr_serial c T 0 d2 m1) as (m2 & E2 & H2 & _).
  destruct (atomic_incr_serial c T 0 (add_T T d1 d2) m) as (m3 & E3 & H3 & _).
  rewrite E2, E3. unfold final. cbn [fst snd]. rewrite H2, H3, H1.
  assert (E : add_T T (add_T T (cell m) d1) d2
              = add_T T (cell m) (add_T T d1 d2)).
  { unfold add_T, wrap.
    rewrite Zplus_mod_idemp_l, Zplus_mod_idemp_r. f_equal. ring. }
  now rewrite E.
Qed.

(** X9. Increment and decrement commute: on either core and at each width,
    an uninterrupted [atomic_incr(cell, a)] followed by
    [atomic_decr(cell, b)] leaves the cell as [atomic_decr(cell, b)]
    followed by [atomic_incr(cell, a)] does, and the second call returns
    the same value either way. *)
Theorem incr_decr_commute (c : core) (T : width) (a b : Z) (m : machine) :
  let rid := atomic_decr c T 1 [] b (final (atomic_incr c T 1 [] a m)) in
  let rdi := atomic_incr c T 1 [] a (final (atomic_decr c T 1 [] b m)) in
  fst rid = fst rdi /\ cell (final rid) = cell (final rdi).
Proof.
  cbv zeta.
  destruct (atomic_incr_serial c T 0 a m) as (m1 & E1 & H1 & _).
  destruct (atomic_decr_serial c T 0 b m) as (m2 & E2 & H2 & _).
  rewrite E1, E2.
  change (final (Some (add_T T (cell m) a), m1)) with m1.
  change (final (Some (sub_T T (cell m) b), m2)) with m2.
  destruct (atomic_decr_serial c T 0 b m1) as (m3 & E3 & H3 & _).
  destruct (atomic_incr_serial c T 0 a m2) as (m4 & E4 & H4 & _).
  rewrite E3, E4. unfold final. cbn [fst snd]. rewrite H3, H4, H1, H2.
  assert (E : sub_T T (add_T T (cell m) a) b
              = add_T T (sub_T T (cell m) b) a).
  { unfold add_T, sub_T, wrap.
    rewrite Zminus_mod_idemp_l, Zplus_mod_idemp_l. f_equal. ring. }
  now rewrite E.
Qed.

(* ================================================================= *)
(** ** PRIMASK across interleavings *)

(** A statement of the running agent keeps [mask_ok], and PRIMASK is back
    to what it was at the start when the agent is outside the masked
    region. *)
Lemma step_mask (c : core) (T : width) (d : Z) (p0 : bool) (a a' : agent)
  (m m' : machine) :
  step c T d a m = (a', m') ->
  mask_ok p0 m true a ->
  (in_masked a = false -> primask m = p0) ->
  mask_ok p0 m' true a' /\ (in_masked a' = false -> primask m' = p0).
Proof.
  unfold step, mask_ok, in_masked.
  destruct a as [l n old new cur prev r rets]; cbn [pc calls oldValue newValue
    currentValue previousPRIMASK rc returns].
  rewrite LDREX_eq, STREX_eq.
  destruct l; simp; intros E H Hp.
  - destruct n; inversion E; subst; simp; auto.
  - inversion E; subst; simp; auto.
  - inversion E; subst. destruct c; simp; auto.
  - inversion E; subst; simp; auto.
  - inversion E; subst.
    destruct (negb (cur =? old)); simp; auto.
  - inversion E; subst; simp; auto.
  - inversion E; subst; simp; auto.
  - unfold strex in E. destruct (monitor m); inversion E; subst; simp; auto.
  - inversion E; subst; simp. rewrite Hp by reflexivity. auto.
  - inversion E; subst; simp. split; [auto | discriminate].
  - inversion E; subst; simp. split; [tauto | discriminate].
  - inversion E; subst.
    destruct (cur =? old); simp; (split; [tauto | discriminate]).
  - inversion E; subst; simp. split; [tauto | discriminate].
  - inversion E; subst; simp. split; [tauto | discriminate].
  - destruct H as (_ & Hm & Hprev). subst prev.
    destruct p0; inversion E; subst; simp; auto.
  - inversion E; subst. destruct r; simp; auto.
  - inversion E; subst; simp; auto.
Qed.

Lemma mask_ok_waiting (p0 : bool) (m m' : machine) (a : agent) :
  mask_ok p0 m false a -> mask_ok p0 m' false a /\ in_masked a = false.
Proof.
  unfold mask_ok, in_masked. destruct (pc a); intros H; auto;
    destruct H as (H & _); discriminate.
Qed.

Lemma mask_ok_switch (p0 : bool) (m : machine) (me me' : bool) (a : agent) :
  primask m = false ->
  mask_ok p0 m me a -> mask_ok p0 (set_monitor false m) me' a.
Proof.
  unfold mask_ok. intros Hp. destruct (pc a); intros H; auto;
    destruct H as (_ & H & _); congruence.
Qed.

Section Masking.

Variable c : core.
Variable T : width.
Variable delta : bool -> Z.
Variable p0 : bool.

Lemma exec_mask (t : bool) (s : system) :
  running s = t ->
  mask_invariant p0 s -> mask_invariant p0 (exec c T delta t s).
Proof.
  intros Hr (Hok & Hp). unfold exec.
  destruct (step c T (delta t) (agents s t) (mach s)) as [a' m'] eqn:E.
  pose proof (Hok t) as Ht. rewrite Hr, Bool.eqb_reflx in Ht.
  pose proof (Hok (negb t)) as Hu.
  assert (Hne : Bool.eqb (negb t) (running s) = false)
    by (rewrite Hr; now destruct t).
  rewrite Hne in Hu.
  destruct (mask_ok_waiting p0 (mach s) m' _ Hu) as (Hu' & Hu0).
  assert (Hpt : in_masked (agents s t) = false -> primask (mach s) = p0).
  { intros H. destruct t; cbn [negb] in Hu0; auto. }
  destruct (step_mask c T (delta t) p0 _ _ _ _ E Ht Hpt) as (Ha' & Hp').
  split; cbn [mach running agents]; unfold update.
  - intros u. destruct (Bool.eqb u t) eqn:Eu.
    + exact Ha'.
    + assert (u = negb t) by (destruct u, t; simpl in *; congruence).
      subst u. exact Hu'.
  - destruct t; cbn [Bool.eqb negb] in *; auto.
Qed.

Lemma sched_mask (s : system) (t : bool) :
  mask_invariant p0 s -> mask_invariant p0 (sched c T delta s t).
Proof.
  intros Hinv. unfold sched.
  destruct (Bool.eqb t (running s)) eqn:Et.
  - apply exec_mask; [|exact Hinv]. symmetry. now apply Bool.eqb_prop.
  - destruct (primask (mach s)) eqn:Hp; [exact Hinv|].
    apply exec_mask; [reflexivity|].
    destruct Hinv as (Hok & Hp0). split; cbn [mach running agents].
    + intros u.
      now apply mask_ok_switch with (me := Bool.eqb u (running s)).
    + exact Hp0.
Qed.

Lemma interleave_mask (schedule : list bool) :
  forall s, mask_invariant p0 s ->
            mask_invariant p0 (interleave c T delta schedule s).
Proof.
  unfold interleave.
  induction schedule as [|t schedule IH]; intros s Hinv; simpl.
  - exact Hinv.
  - apply IH. now apply sched_mask.
Qed.

End Masking.

Lemma streams_mask (a b : nat) (m : machine) (first : bool) :
  mask_invariant (primask m) (streams a b m first).
Proof.
  split; cbn [mach running agents streams].
  - intros t. destruct t; exact I.
  - reflexivity.
Qed.

(** X10. Interrupt state survives interleaving.  Two streams of
    [atomic_incr] calls run on one processor, on either core and at each
    width, from any machine state.  Whatever the interleaving, whenever
    neither agent is between [__disable_irq()] and the end of its
    [atomic_cas], and so whenever both streams are through, PRIMASK is
    what it was at the start. *)
Theorem interleaving_preserves_primask (c : core) (T : width) (a b : nat)
  (d1 d2 : Z) (m : machine) (first : bool) (schedule : list bool) :
  let s := interleave c T (deltas d1 d2) schedule (streams a b m first) in
  (in_masked (agents s false) = false ->
   in_masked (agents s true) = false ->
   primask (mach s) = primask m) /\
  (finished (agents s false) -> finished (agents s true) ->
   primask (mach s) = primask m).
Proof.
  cbv zeta.
  destruct (interleave_mask c T (deltas d1 d2) (primask m) schedule
              (streams a b m first) (streams_mask a b m first)) as (_ & Hp).
  split; [exact Hp|].
  intros (H0 & _) (H1 & _). apply Hp; unfold in_masked.
  - now rewrite H0.
  - now rewrite H1.
Qed.

Lemma interleaving_preserves_primask_witness :
  let m := {| cell := 0; monitor := false; primask := false |} in
  let schedule := repeat false 3 ++ repeat true 11 ++ repeat false 16 in
  let s := interleave CortexM0 W8 (deltas 3 5) schedule
             (streams 1 1 m false) in
  primask (mach s) = false /\ cell (mach s) = 8.
Proof.
  cbv zeta.
  destruct (interleaving_preserves_primask CortexM0 W8 1 1 3 5
              {| cell := 0; monitor := false; primask := false |} false
              (repeat false 3 ++ repeat true 11 ++ repeat false 16))
    as (_ & H).
  split; [|reflexivity].
  apply H; split; reflexivity.
Defined.

(** X11. Masked regions exclude each other: in every interleaving of the
    two streams, from any machine state, at most one agent is between
    [__disable_irq()] and the end of its [atomic_cas]; an agent that is
    there is the one running, and interrupts are masked. *)
Theorem masked_regions_exclude (c : core) (T : width) (a b : nat)
  (d1 d2 : Z) (m : machine) (first : bool) (schedule : list bool) :
  let s := interleave c T (deltas d1 d2) schedule (streams a b m first) in
  in_masked (agents s false) && in_masked (agents s true) = false /\
  (forall t, in_masked (agents s t) = true ->
             running s = t /\ primask (mach s) = true).
Proof.
  cbv zeta.
  destruct (interleave_mask c T (deltas d1 d2) (primask m) schedule
              (streams a b m first) (streams_mask a b m first)) as (Hok & _).
  set (s := interleave c T (deltas d1 d2) schedule (streams a b m first)) in *.
  assert (H : forall t, in_masked (agents s t) = true ->
                        running s = t /\ primask (mach s) = true).
  { intros t Ht. specialize (Hok t). unfold mask_ok, in_masked in *.
    destruct (pc (agents s t)); try discriminate;
      destruct Hok as (Hme & Hp & _); split; auto;
      symmetry; now apply Bool.eqb_prop. }
  split; [|exact H].
  destruct (in_masked (agents s false)) eqn:E0;
    destruct (in_masked (agents s true)) eqn:E1; auto.
  destruct (H false E0) as (R0 & _). destruct (H true E1) as (R1 & _).
  congruence.
Qed.

Lemma masked_regions_exclude_witness :
  let m := {| cell := 0; monitor := false; primask := false |} in
  let s := interleave CortexM0 W8 (deltas 3 5) (repeat false 5 ++ [true])
             (streams 1 1 m true) in
  pc (agents s false) = MkLoad /\ pc (agents s true) = Next /\
  running s = false /\ primask (mach s) = true.
Proof.
  cbv zeta.
  destruct (masked_regions_exclude CortexM0 W8 1 1 3 5
              {| cell := 0; monitor := false; primask := false |} true
              (repeat false 5 ++ [true])) as (_ & H).
  split; [reflexivity|]. split; [reflexivity|].
  apply (H false). reflexivity.
Defined.
